(** * Pluggable components: connector, registry, loader and the
      command-streaming HTTP middleware

    A shallow embedding of
      - pkg/components/middleware/http/pluggable.go  (commandHandler,
        newGRPCMiddleware),
      - pkg/components/pluggable/grpc.go             (socketPathFor, Dial, Ping),
      - pkg/runtime/options.go                       (WithStates ..., withOpts,
        useOption, WithPluggables),
      - the registry exercised by pkg/components/pluggable/registry_test.go.

    Go maps are [gmap]s, Go strings are [string]s, byte slices are lists of
    bytes, [error] results are [option string] ([None] is [nil]). *)

From Stdlib Require Import ZArith.
From Stdlib.Strings Require Import Byte.
From stdpp Require Import gmap strings list fin_maps.

Local Open Scope string_scope.
Local Open Scope list_scope.

(** ** Wire messages (proto.Command / proto.CommandResponse) *)

Definition bytes := list Byte.byte.

(** The [oneof] of [proto.Command].  [NoCommand] is a message whose
    [Command] field holds none of the ten variants (a nil interface). *)
Inductive Command : Type :=
  | GetReqBody
  | GetRespBody
  | GetRespHeaders
  | GetReqHeaders
  | ExecNext
  | SetReqHeaders (Headers : gmap string string) (Method Uri : string)
  | SetRespHeaders (Headers : gmap string string)
  | SetRespStatus (StatusCode : Z)
  | SetReqBody (Data : bytes)
  | SetRespBody (Data : bytes)
  | NoCommand.

Inductive CommandResponse : Type :=
  | GetRequestBodyCommandResponse (Data : bytes)
  | GetResponseBodyCommandResponse (Data : bytes)
  | GetResponseHeadersCommandResponse (Headers : gmap string string)
  | GetRequestHeadersCommandResponse
      (Method Uri : string) (Headers : gmap string string).

(** ** The request context (fasthttp.RequestCtx)

    fasthttp is a dependency, not part of the repository.  For each accessor
    the handler calls, the model keeps the piece of library state that the
    accessor reads or writes, as the library documents it:
      - [Header.VisitAllInOrder] scans the raw request headers as they were
        received; [Header.Set] changes the header table and leaves the raw
        headers alone;
      - [ctx.URI()] is the parsed URI, which is parsed once and then kept;
        [Header.SetRequestURI] stores a request URI in the header and does
        not reset the parsed URI;
      - [ctx.Method()] returns the method that [Header.SetMethod] stores;
      - what [Header.Set] does inside a header table (canonical names,
        special headers) is the library's business: for the request the
        calls are recorded, for the response the header is an object with
        its own [Set] and [VisitAll], about which nothing is assumed. *)

Definition header_table := list (string * string).

Record Request : Type := mkRequest {
  req_method     : string;          (* what [Method()] returns *)
  req_uri        : string;          (* what [URI().String()] returns *)
  req_header     : header_table;    (* the headers as received, in order *)
  req_body       : bytes;
  req_requestURI : string;          (* the request URI stored in the header *)
  req_set        : list (string * string);
                                    (* the calls of [Header.Set], in order *)
}.

(** The response header (fasthttp.ResponseHeader) as an object: the
    library's state and the methods the code calls on it. *)
Record ResponseHeader : Type := mkResponseHeader {
  rh_state          : Type;
  rh_this           : rh_state;
  rh_Set            : string → string → rh_state → rh_state;
  rh_SetContentType : string → rh_state → rh_state;
  rh_Reset          : rh_state → rh_state;
  rh_VisitAll       : rh_state → header_table;
      (* the pairs [VisitAll] hands to its visitor, first to last *)
}.

Definition rh_with (o : ResponseHeader) (st : rh_state o) : ResponseHeader :=
  mkResponseHeader (rh_state o) st (rh_Set o) (rh_SetContentType o)
                   (rh_Reset o) (rh_VisitAll o).

Definition ResponseHeader_Set (k v : string) (o : ResponseHeader) : ResponseHeader :=
  rh_with o (rh_Set o k v (rh_this o)).

Definition ResponseHeader_SetContentType (ct : string) (o : ResponseHeader)
    : ResponseHeader :=
  rh_with o (rh_SetContentType o ct (rh_this o)).

Definition ResponseHeader_Reset (o : ResponseHeader) : ResponseHeader :=
  rh_with o (rh_Reset o (rh_this o)).

Definition ResponseHeader_VisitAll (o : ResponseHeader) : header_table :=
  rh_VisitAll o (rh_this o).

Record Response : Type := mkResponse {
  resp_status : Z;
  resp_header : ResponseHeader;
  resp_body   : bytes;
}.

Record RequestCtx : Type := mkCtx {
  ctxRequest  : Request;
  ctxResponse : Response;
}.

(** The visitor of both header loops, [headers[string(key)] = string(value)]:
    the pairs are stored in the Go map in the order they are handed over, a
    later pair replacing an earlier one of the same name. *)
Definition visit_into_map (t : header_table) : gmap string string :=
  foldl (λ headers kv, <[kv.1 := kv.2]> headers) ∅ t.

Definition http_StatusInternalServerError : Z := 500.
Definition defaultContentType : string := "text/plain; charset=utf-8".

Definition set_request (f : Request → Request) (ctx : RequestCtx) : RequestCtx :=
  mkCtx (f (ctxRequest ctx)) (ctxResponse ctx).

Definition set_response (f : Response → Response) (ctx : RequestCtx) : RequestCtx :=
  mkCtx (ctxRequest ctx) (f (ctxResponse ctx)).

(** ctx.Request.Header.Set *)
Definition Request_Header_Set (k v : string) : RequestCtx → RequestCtx :=
  set_request (λ r, mkRequest (req_method r) (req_uri r) (req_header r) (req_body r)
                              (req_requestURI r) (req_set r ++ [(k, v)])).

(** ctx.Request.Header.SetMethod *)
Definition Request_Header_SetMethod (m : string) : RequestCtx → RequestCtx :=
  set_request (λ r, mkRequest m (req_uri r) (req_header r) (req_body r)
                              (req_requestURI r) (req_set r)).

(** ctx.Request.Header.SetRequestURI *)
Definition Request_Header_SetRequestURI (u : string) : RequestCtx → RequestCtx :=
  set_request (λ r, mkRequest (req_method r) (req_uri r) (req_header r) (req_body r)
                              u (req_set r)).

(** ctx.Request.SetBody *)
Definition Request_SetBody (d : bytes) : RequestCtx → RequestCtx :=
  set_request (λ r, mkRequest (req_method r) (req_uri r) (req_header r) d
                              (req_requestURI r) (req_set r)).

(** ctx.Response.Header.Set *)
Definition Response_Header_Set (k v : string) : RequestCtx → RequestCtx :=
  set_response (λ r, mkResponse (resp_status r)
                                (ResponseHeader_Set k v (resp_header r)) (resp_body r)).

(** ctx.SetStatusCode *)
Definition SetStatusCode (c : Z) : RequestCtx → RequestCtx :=
  set_response (λ r, mkResponse c (resp_header r) (resp_body r)).

(** ctx.SetBody *)
Definition SetBody (d : bytes) : RequestCtx → RequestCtx :=
  set_response (λ r, mkResponse (resp_status r) (resp_header r) d).

(** ctx.Error(msg, statusCode): the response is reset, then given the status
    code, the default content type and [msg] as its body. *)
Definition ctx_Error (msg : string) (statusCode : Z) : RequestCtx → RequestCtx :=
  set_response (λ r, mkResponse statusCode
                                (ResponseHeader_SetContentType defaultContentType
                                   (ResponseHeader_Reset (resp_header r)))
                                (String.list_byte_of_string msg)).

(** ** Iterating a Go map

    [for k, v := range m] visits every entry of [m] once, in an order the
    language leaves unspecified.  A [range_order] is one such choice of
    order. *)
Record range_order : Type := mkRange {
  range_of :> gmap string string → list (string * string);
  range_perm : ∀ m, range_of m ≡ₚ map_to_list m;
}.

Definition listed_range : range_order :=
  mkRange map_to_list (λ m, reflexivity (map_to_list m)).

(** ** commandHandler (pluggable.go, lines 34-111) *)

(** What one call of the returned closure does: the context it leaves, the
    responses it handed to [callback] and the error it returns. *)
Record dispatched : Type := mkDispatched {
  d_ctx  : RequestCtx;
  d_sent : list CommandResponse;
  d_err  : option string;
}.

Section CommandHandler.
(** the order in which the two [range] loops walk their maps *)
Variable order : range_order.
(** the next handler of the chain, [h fasthttp.RequestHandler] *)
Variable h : RequestCtx → RequestCtx.
(** [callback], the function that sends a CommandResponse and returns its error *)
Variable callback : CommandResponse → option string.

Definition reply (ctx : RequestCtx) (r : CommandResponse) : dispatched :=
  mkDispatched ctx [r] (callback r).

Definition commandHandler (ctx : RequestCtx) (req : Command) : dispatched :=
  match req with
  | GetReqBody =>
      reply ctx (GetRequestBodyCommandResponse (req_body (ctxRequest ctx)))
  | GetRespBody =>
      reply ctx (GetResponseBodyCommandResponse (resp_body (ctxResponse ctx)))
  | GetRespHeaders =>
      let headers :=
        visit_into_map (ResponseHeader_VisitAll (resp_header (ctxResponse ctx))) in
      reply ctx (GetResponseHeadersCommandResponse headers)
  | GetReqHeaders =>
      let headers := visit_into_map (req_header (ctxRequest ctx)) in
      reply ctx (GetRequestHeadersCommandResponse
                   (req_method (ctxRequest ctx))
                   (req_uri (ctxRequest ctx))
                   headers)
  | ExecNext =>
      mkDispatched (h ctx) [] None
  | SetReqHeaders headers method uri =>
      let ctx1 := foldl (λ c kv, Request_Header_Set kv.1 kv.2 c) ctx (order headers) in
      let ctx2 := if decide (method ≠ "") then Request_Header_SetMethod method ctx1 else ctx1 in
      let ctx3 := if decide (uri ≠ "") then Request_Header_SetRequestURI uri ctx2 else ctx2 in
      mkDispatched ctx3 [] None
  | SetRespHeaders headers =>
      mkDispatched
        (foldl (λ c kv, Response_Header_Set kv.1 kv.2 c) ctx (order headers)) [] None
  | SetRespStatus code =>
      mkDispatched (SetStatusCode code ctx) [] None
  | SetReqBody data =>
      mkDispatched (Request_SetBody data ctx) [] None
  | SetRespBody data =>
      mkDispatched (SetBody data ctx) [] None
  | NoCommand =>
      mkDispatched ctx [] None
  end.
End CommandHandler.

(** ** The per-request command loop (newGRPCMiddleware, lines 129-166)

    The loop talks to three outside parties: the stream's context, the
    request's context and the stream itself.  A session is described by what
    these do, in the order in which it happens. *)

(** What [client.Recv()] returns. *)
Inductive recv_result : Type :=
  | RecvCmd (cmd : Command)
  | RecvEOF                   (* err == io.EOF *)
  | RecvErr (e : string).     (* any other error *)

Inductive event : Type :=
  | EvStreamDone                                   (* client.Context() is done *)
  | EvDeadline                                     (* ctx is done *)
  | EvRecv (r : recv_result) (send : CommandResponse → option string).
      (* the pending Recv returns [r]; while the command is dispatched
         [client.Send] behaves as [send] *)

(** The two done-channels as the [select] finds them. *)
Record signals : Type := mkSignals {
  streamDone : bool;
  ctxDone    : bool;
}.

Definition no_signal : signals := mkSignals false false.

Inductive outcome : Type :=
  | Returned (ctx : RequestCtx) (sent : list CommandResponse)
      (* the handler returned, leaving [ctx] to the caller *)
  | Blocked (ctx : RequestCtx) (sent : list CommandResponse).
      (* the handler sits in client.Recv() and nothing more happens *)

Definition timeout_message (name : string) : string :=
  "timed out waiting for middleware '" +:+ name +:+ "'".

Definition error_response (e : string) (ctx : RequestCtx) : RequestCtx :=
  ctx_Error e http_StatusInternalServerError ctx.

(** A command as the stream delivers it, with the behaviour of [client.Send]
    while it is dispatched. *)
Definition received : Type := Command * (CommandResponse → option string).

Definition events_of (cmds : list received) : list event :=
  (λ c, EvRecv (RecvCmd c.1) c.2) <$> cmds.

Section Middleware.
Variable order : range_order.
(** [metadata.Name] *)
Variable name : string.
Variable h : RequestCtx → RequestCtx.

(** The [select] of one iteration.  Both receive cases are polled; when
    both are ready Go picks either, so both outcomes are listed; when none
    is ready the [default] branch [k] runs. *)
Definition select (sg : signals) (ctx : RequestCtx) (sent : list CommandResponse)
    (k : list outcome) : list outcome :=
  let finished := Returned ctx sent in
  let timedout :=
    Returned (ctx_Error (timeout_message name) http_StatusInternalServerError ctx) sent in
  match streamDone sg, ctxDone sg with
  | true, true => [finished; timedout]
  | true, false => [finished]
  | false, true => [timedout]
  | false, false => k
  end.

(** The [default] branch: the handler is inside [client.Recv()].  Signals
    that fire meanwhile are only recorded; the call returns when the stream
    delivers something. *)
Fixpoint recv_loop (evs : list event) (sg : signals) (ctx : RequestCtx)
    (sent : list CommandResponse) : list outcome :=
  match evs with
  | [] => [Blocked ctx sent]
  | EvStreamDone :: evs' => recv_loop evs' (mkSignals true (ctxDone sg)) ctx sent
  | EvDeadline :: evs' => recv_loop evs' (mkSignals (streamDone sg) true) ctx sent
  | EvRecv RecvEOF _ :: _ => [Returned ctx sent]
  | EvRecv (RecvErr e) _ :: _ =>
      [Returned (ctx_Error e http_StatusInternalServerError ctx) sent]
  | EvRecv (RecvCmd cmd) send :: evs' =>
      let d := commandHandler order h send ctx cmd in
      match d_err d with
      | Some e =>
          [Returned (ctx_Error e http_StatusInternalServerError (d_ctx d))
                    (sent ++ d_sent d)]
      | None =>
          select sg (d_ctx d) (sent ++ d_sent d)
                 (recv_loop evs' sg (d_ctx d) (sent ++ d_sent d))
      end
  end.

(** The handler installed for one request.  [handle_err] is the error of
    [connector.Client.Handle(ctx)], [sg] the state of the two contexts when
    the loop is entered. *)
Definition middleware (handle_err : option string) (sg : signals)
    (evs : list event) (ctx : RequestCtx) : list outcome :=
  match handle_err with
  | Some e => [Returned (ctx_Error e http_StatusInternalServerError ctx) []]
  | None => select sg ctx [] (recv_loop evs sg ctx [])
  end.

(** Dispatching commands one after the other until one returns an error:
    the state of the session at that point. *)
Fixpoint dispatch_all (cmds : list received) (ctx : RequestCtx)
    (sent : list CommandResponse) : dispatched :=
  match cmds with
  | [] => mkDispatched ctx sent None
  | (cmd, send) :: cmds' =>
      let d := commandHandler order h send ctx cmd in
      match d_err d with
      | Some e => mkDispatched (d_ctx d) (sent ++ d_sent d) (Some e)
      | None => dispatch_all cmds' (d_ctx d) (sent ++ d_sent d)
      end
  end.
End Middleware.

(** ** The connector (grpc.go) *)

(** Modelled from the spec: the descriptor of a pluggable component,
    [components.Pluggable] (called [pluggable.Component] in options.go), is
    declared in another package: a type, a name and a version.  The type is
    a string type ([%s] prints it, [components.Type(...)] converts it). *)
Record Pluggable : Type := mkPluggable {
  Type_   : string;
  Name    : string;
  Version : string;
}.

Definition daprSocketFolderEnvVar : string := "DAPR_PLUGGABLE_COMPONENTS_SOCKETS_FOLDER".
Definition defaultSocketFolder : string := "/var/run".

(** Modelled from the spec: [utils.GetEnvOrElse] is declared in another
    package; the socket root is the value of the environment variable when it
    is set and the fixed default otherwise. *)
Definition GetEnvOrElse (env : gmap string string) (name orElse : string) : string :=
  default orElse (env !! name).

(** [init()]: the package variable [socketsFolder] *)
Definition socketsFolder (env : gmap string string) : string :=
  GetEnvOrElse env daprSocketFolderEnvVar defaultSocketFolder.

Inductive DialOption : Type :=
  | WithTransportCredentials_insecure
  | OtherDialOption (tag : string).

Inductive CallOption : Type :=
  | WaitForReady (b : bool).

(** Calls made to the gRPC library, in order. *)
Inductive grpc_call : Type :=
  | CallDial (target : string) (opts : list DialOption)
  | CallPing (opts : list CallOption).

(** The mutable part of [GRPCConnector]: the connection (its target) and
    whether [Client] has been built from it. *)
Record GRPCConnector : Type := mkConnector {
  pluggable : Pluggable;
  conn      : option string;
  hasClient : bool;
}.

Definition NewGRPCConnector (pc : Pluggable) : GRPCConnector :=
  mkConnector pc None false.

Section Connector.
Variable env : gmap string string.
(** the error of [grpc.Dial(target, opts...)] *)
Variable grpc_Dial : string → list DialOption → option string.
(** the error of [Client.Ping(ctx, &emptypb.Empty{}, opts...)] *)
Variable client_Ping : list CallOption → option string.

(** fmt.Sprintf("%s/dapr-%s.%s-%s-%s.sock", ...) *)
Definition socketPathFor (g : GRPCConnector) (componentName : string) : string :=
  socketsFolder env +:+ "/dapr-" +:+ Type_ (pluggable g) +:+ "." +:+ Name (pluggable g)
    +:+ "-" +:+ Version (pluggable g) +:+ "-" +:+ componentName +:+ ".sock".

(** errors.Wrapf(err, format, args...): the message is the formatted text,
    a colon and the cause. *)
Definition Wrapf (err msg : string) : string := msg +:+ ": " +:+ err.

Definition Ping (g : GRPCConnector) : list grpc_call * option string :=
  ([CallPing [WaitForReady true]], client_Ping [WaitForReady true]).

Definition Dial (g : GRPCConnector) (componentName : string)
    (additionalOpts : list DialOption)
    : GRPCConnector * list grpc_call * option string :=
  let udsSocket := "unix://" +:+ socketPathFor g componentName in
  let additionalOpts := additionalOpts ++ [WithTransportCredentials_insecure] in
  match grpc_Dial udsSocket additionalOpts with
  | Some err =>
      (g, [CallDial udsSocket additionalOpts],
       Some (Wrapf err ("unable to open GRPC connection using socket '" +:+ udsSocket +:+ "'")))
  | None =>
      let g' := mkConnector (pluggable g) (Some udsSocket) true in
      let '(calls, err) := Ping g' in
      (g', CallDial udsSocket additionalOpts :: calls, err)
  end.
End Connector.

(** ** The registry

    registry.go is not among the sources; registry_test.go exercises its
    [registries], [AddRegistryFor] and [Register]. *)

(** What registering components does to the host: the warnings logged, the
    component names handed to a component registry, and the descriptors a
    component factory was run on. *)
Record host : Type := mkHost {
  warnings   : list string;
  registered : list string;
  built      : list Pluggable;
}.

(** [registries map[components.PluggableType]func(components.Pluggable)] *)
Definition registries_t : Type := gmap string (Pluggable → host → host).

(** Modelled from the spec: [AddRegistryFor] (registry.go is missing) stores
    or overwrites the constructor for the type.  The constructor hands the
    registry function a closure over the factory together with the
    component's name; the factory itself runs only if that closure is called
    (test: [registerCalled] is 1, [mapCalled] is 0). *)
Definition AddRegistryFor (cmpType : string)
    (regFunc : (host → host) → string → host → host)
    (factory : Pluggable → host → host)
    (registries : registries_t) : registries_t :=
  <[cmpType := λ pc, regFunc (factory pc) (Name pc)]> registries.

(** Modelled from the spec: [Register] (registry.go is missing) looks the
    descriptor's type up; an absent type is logged at warning level and 0 is
    returned, otherwise the constructor runs and 1 is returned. *)
Definition Register (registries : registries_t) (pc : Pluggable) (hst : host)
    : nat * host :=
  match registries !! Type_ pc with
  | None =>
      (0, mkHost (warnings hst ++ [Type_ pc +:+ " is not registered as a pluggable component"])
                 (registered hst) (built hst))
  | Some registerFunc => (1, registerFunc pc hst)
  end.

(** the two functions of the second test: each counts its calls *)
Definition count_register (componentFactory : host → host) (name : string)
    (hst : host) : host :=
  mkHost (warnings hst) (registered hst ++ [name]) (built hst).

Definition count_map (pc : Pluggable) (hst : host) : host :=
  mkHost (warnings hst) (registered hst) (built hst ++ [pc]).

(** ** The loader (options.go) *)

(** The nine component kinds of [runtimeOpts]. *)
Inductive kind : Type :=
  | KSecretStore | KState | KConfiguration | KLock | KPubSub
  | KNameResolution | KInputBinding | KOutputBinding | KHTTPMiddleware.

Section Loader.
(** the Go type of the components of each kind
    (secretstores.SecretStore, state.State, ...) *)
Variable component : kind → Type.
(** [pluggable.MustLoad[T]], declared in another package: it turns a
    descriptor into the component of type T *)
Variable MustLoad : ∀ k : kind, Pluggable → component k.

(** the type tags [components.State], ..., declared in another package *)
Variables components_State components_PubSub components_InputBinding
          components_OutputBinding components_HTTPMiddleware
          components_Configuration components_Secret components_Lock
          components_NameResolution : string.

Record runtimeOpts : Type := mkOpts {
  secretStores    : list (component KSecretStore);
  states          : list (component KState);
  configurations  : list (component KConfiguration);
  locks           : list (component KLock);
  pubsubs         : list (component KPubSub);
  nameResolutions : list (component KNameResolution);
  inputBindings   : list (component KInputBinding);
  outputBindings  : list (component KOutputBinding);
  httpMiddleware  : list (component KHTTPMiddleware);
}.

(** [Option func(o *runtimeOpts)]: the function updates [o] in place *)
Definition Option : Type := runtimeOpts → runtimeOpts.

Definition WithSecretStores (xs : list (component KSecretStore)) : Option :=
  λ o, mkOpts (secretStores o ++ xs) (states o) (configurations o) (locks o) (pubsubs o)
              (nameResolutions o) (inputBindings o) (outputBindings o) (httpMiddleware o).

Definition WithStates (xs : list (component KState)) : Option :=
  λ o, mkOpts (secretStores o) (states o ++ xs) (configurations o) (locks o) (pubsubs o)
              (nameResolutions o) (inputBindings o) (outputBindings o) (httpMiddleware o).

Definition WithConfigurations (xs : list (component KConfiguration)) : Option :=
  λ o, mkOpts (secretStores o) (states o) (configurations o ++ xs) (locks o) (pubsubs o)
              (nameResolutions o) (inputBindings o) (outputBindings o) (httpMiddleware o).

Definition WithLocks (xs : list (component KLock)) : Option :=
  λ o, mkOpts (secretStores o) (states o) (configurations o) (locks o ++ xs) (pubsubs o)
              (nameResolutions o) (inputBindings o) (outputBindings o) (httpMiddleware o).

Definition WithPubSubs (xs : list (component KPubSub)) : Option :=
  λ o, mkOpts (secretStores o) (states o) (configurations o) (locks o) (pubsubs o ++ xs)
              (nameResolutions o) (inputBindings o) (outputBindings o) (httpMiddleware o).

Definition WithNameResolutions (xs : list (component KNameResolution)) : Option :=
  λ o, mkOpts (secretStores o) (states o) (configurations o) (locks o) (pubsubs o)
              (nameResolutions o ++ xs) (inputBindings o) (outputBindings o) (httpMiddleware o).

Definition WithInputBindings (xs : list (component KInputBinding)) : Option :=
  λ o, mkOpts (secretStores o) (states o) (configurations o) (locks o) (pubsubs o)
              (nameResolutions o) (inputBindings o ++ xs) (outputBindings o) (httpMiddleware o).

Definition WithOutputBindings (xs : list (component KOutputBinding)) : Option :=
  λ o, mkOpts (secretStores o) (states o) (configurations o) (locks o) (pubsubs o)
              (nameResolutions o) (inputBindings o) (outputBindings o ++ xs) (httpMiddleware o).

Definition WithHTTPMiddleware (xs : list (component KHTTPMiddleware)) : Option :=
  λ o, mkOpts (secretStores o) (states o) (configurations o) (locks o) (pubsubs o)
              (nameResolutions o) (inputBindings o) (outputBindings o) (httpMiddleware o ++ xs).

(** withOpts applies all given options, first to last *)
Definition withOpts (opts : list Option) : Option :=
  λ o, foldl (λ o opt, opt o) o opts.

(** useOption adds (or replaces) a loader in the loader map *)
Definition useOption (k : kind) (componentType : string)
    (add : list (component k) → Option)
    (pluggableOptions : gmap string (Pluggable → Option))
    : gmap string (Pluggable → Option) :=
  <[componentType := λ pc, add [MustLoad k pc]]> pluggableOptions.

(** [pluggableOptions] after [init()] *)
Definition pluggableOptions : gmap string (Pluggable → Option) :=
  useOption KNameResolution components_NameResolution WithNameResolutions
  (useOption KLock components_Lock WithLocks
  (useOption KSecretStore components_Secret WithSecretStores
  (useOption KConfiguration components_Configuration WithConfigurations
  (useOption KHTTPMiddleware components_HTTPMiddleware WithHTTPMiddleware
  (useOption KOutputBinding components_OutputBinding WithOutputBindings
  (useOption KInputBinding components_InputBinding WithInputBindings
  (useOption KPubSub components_PubSub WithPubSubs
  (useOption KState components_State WithStates ∅)))))))).

(** WithPluggables: the loop collects [load(pluggable)] for the descriptors
    whose type has a loader and ignores the others *)
Definition WithPluggables (pluggables : list Pluggable) : Option :=
  let opts :=
    foldl (λ opts pc,
             match pluggableOptions !! Type_ pc with
             | Some load => opts ++ [load pc]
             | None => opts
             end) [] pluggables in
  withOpts opts.

Definition known_types : list string :=
  [components_State; components_PubSub; components_InputBinding;
   components_OutputBinding; components_HTTPMiddleware; components_Configuration;
   components_Secret; components_Lock; components_NameResolution].

Definition empty_opts : runtimeOpts := mkOpts [] [] [] [] [] [] [] [] [].

(** what the loop of WithPluggables and withOpts together do to the options
    for one descriptor *)
Definition load_one (o : runtimeOpts) (pc : Pluggable) : runtimeOpts :=
  match pluggableOptions !! Type_ pc with
  | Some load => load pc o
  | None => o
  end.

(** the list of [runtimeOpts] that holds the components of a kind *)
Definition components_of (k : kind) (o : runtimeOpts) : list (component k) :=
  match k with
  | KSecretStore => secretStores o
  | KState => states o
  | KConfiguration => configurations o
  | KLock => locks o
  | KPubSub => pubsubs o
  | KNameResolution => nameResolutions o
  | KInputBinding => inputBindings o
  | KOutputBinding => outputBindings o
  | KHTTPMiddleware => httpMiddleware o
  end.

(** the calls of [init()]: type tag and kind of component *)
Definition loader_table : list (string * kind) :=
  [(components_State, KState); (components_PubSub, KPubSub);
   (components_InputBinding, KInputBinding);
   (components_OutputBinding, KOutputBinding);
   (components_HTTPMiddleware, KHTTPMiddleware);
   (components_Configuration, KConfiguration);
   (components_Secret, KSecretStore); (components_Lock, KLock);
   (components_NameResolution, KNameResolution)].
End Loader.

(** ** The component factory (newGRPCMiddleware, lines 114-128, 167)

    Before it hands out the request handler the factory dials the component
    and sends it the metadata. *)

(** the type of the handler installed for a request: next handler, error of
    opening the stream, state of the two contexts, what the stream does,
    the request context *)
Definition request_handler : Type :=
  (RequestCtx → RequestCtx) → option string → signals → list event →
  RequestCtx → list outcome.

Record factory_result : Type := mkFactory {
  f_calls   : list grpc_call;                  (* calls made through Dial *)
  f_init    : option (gmap string string);     (* properties sent with Init *)
  f_handler : option request_handler;          (* the middleware returned *)
  f_err     : option string;                   (* the error returned *)
}.

Section Factory.
Variable order : range_order.
Variable env : gmap string string.
Variable grpc_Dial : string → list DialOption → option string.
Variable client_Ping : list CallOption → option string.
(** the error of [connector.Client.Init(connector.Context, request)] *)
Variable client_Init : gmap string string → option string.

Definition newGRPCMiddleware (pc : Pluggable)
    (metadata_Name : string) (metadata_Properties : gmap string string)
    : factory_result :=
  let connector := NewGRPCConnector pc in
  let dialed := Dial env grpc_Dial client_Ping connector metadata_Name [] in
  match dialed.2 with
  | Some err => mkFactory dialed.1.2 None None (Some err)
  | None =>
      match client_Init metadata_Properties with
      | Some err => mkFactory dialed.1.2 (Some metadata_Properties) None (Some err)
      | None =>
          mkFactory dialed.1.2 (Some metadata_Properties)
                    (Some (middleware order metadata_Name)) None
      end
  end.
End Factory.

(** ** Injector patches (package patcher) *)

Section Patcher.
(** [corev1.EnvVar] and [corev1.VolumeMount] with the fields the code reads *)
Variable EnvVar : Type.
Variable EnvVar_Name : EnvVar → string.
Variable VolumeMount : Type.
Variable VolumeMount_Name : VolumeMount → string.
Variable VolumeMount_MountPath : VolumeMount → string.
(** the constant [PatchPathContainers], declared in another file of the
    package *)
Variable PatchPathContainers : string.
(** the text [%d] prints for an int *)
Variable Sprintf_d : Z → string.

(** what the [Value interface{}] of a patch operation holds here *)
Inductive patch_value : Type :=
  | EnvVars (envs : list EnvVar)
  | OneEnvVar (env : EnvVar)
  | VolumeMounts (mounts : list VolumeMount)
  | OneVolumeMount (mount : VolumeMount).

(** [PatchOperation], declared in another file of the package *)
Record PatchOperation : Type := mkPatch {
  Op    : string;
  Path  : string;
  Value : patch_value;
}.

(** the inner loop of GetEnvPatchOperations: it stops at the first existing
    variable of the same name *)
Fixpoint env_isConflict (env : EnvVar) (envs : list EnvVar) : bool :=
  match envs with
  | [] => false
  | actual :: envs' =>
      if decide (EnvVar_Name actual = EnvVar_Name env) then true
      else env_isConflict env envs'
  end.

Definition GetEnvPatchOperations (envs addEnv : list EnvVar) (containerIdx : Z)
    : list PatchOperation :=
  let path := PatchPathContainers +:+ "/" +:+ Sprintf_d containerIdx +:+ "/env" in
  if decide (length envs = 0) then [mkPatch "add" path (EnvVars addEnv)]
  else
    let path := path +:+ "/-" in
    foldl (λ patchOps env,
             if env_isConflict env envs then patchOps
             else patchOps ++ [mkPatch "add" path (OneEnvVar env)])
          [] addEnv.

(** the inner loop of GetVolumeMountPatchOperations *)
Fixpoint mount_isConflict (addMount : VolumeMount) (volumeMounts : list VolumeMount)
    : bool :=
  match volumeMounts with
  | [] => false
  | mount :: volumeMounts' =>
      if decide (VolumeMount_Name addMount = VolumeMount_Name mount
                 ∨ VolumeMount_MountPath addMount = VolumeMount_MountPath mount)
      then true
      else mount_isConflict addMount volumeMounts'
  end.

Definition GetVolumeMountPatchOperations (volumeMounts addMounts : list VolumeMount)
    (containerIdx : Z) : list PatchOperation :=
  let path := PatchPathContainers +:+ "/" +:+ Sprintf_d containerIdx +:+ "/volumeMounts" in
  if decide (length volumeMounts = 0) then [mkPatch "add" path (VolumeMounts addMounts)]
  else
    let path := path +:+ "/-" in
    foldl (λ patchOps addMount,
             if mount_isConflict addMount volumeMounts then patchOps
             else patchOps ++ [mkPatch "add" path (OneVolumeMount addMount)])
          [] addMounts.

(** an added variable is free when no existing variable has its name *)
Definition env_free (envs : list EnvVar) (env : EnvVar) : Prop :=
  EnvVar_Name env ∉ EnvVar_Name <$> envs.

(** an added mount is free when no existing mount has its name or its path *)
Definition mount_free (volumeMounts : list VolumeMount) (m : VolumeMount) : Prop :=
  (VolumeMount_Name m ∉ VolumeMount_Name <$> volumeMounts) ∧
  (VolumeMount_MountPath m ∉ VolumeMount_MountPath <$> volumeMounts).

#[global] Instance env_free_dec envs env : Decision (env_free envs env).
Proof. unfold env_free. apply _. Defined.

#[global] Instance mount_free_dec ms m : Decision (mount_free ms m).
Proof. unfold mount_free. apply _. Defined.

(** [resource.Quantity] and the result of [resource.ParseQuantity]: a
    quantity or an error *)
Variable Quantity : Type.
Variable ParseQuantity : string → Quantity + string.

(** [corev1.ResourceCPU] and [corev1.ResourceMemory] *)
Definition ResourceCPU : string := "cpu".
Definition ResourceMemory : string := "memory".

(** [corev1.ResourceRequirements]; a [ResourceList] is a map from resource
    name to quantity *)
Record ResourceRequirements : Type := mkRequirements {
  Limits   : gmap string Quantity;
  Requests : gmap string Quantity;
}.

Definition appendQuantityToResourceList (quantity resourceName : string)
    (resourceList : gmap string Quantity) : gmap string Quantity + string :=
  match ParseQuantity quantity with
  | inr err => inr err
  | inl q => inl (<[resourceName := q]> resourceList)
  end.

(** one of the four blocks of getResourceRequirements: if the annotation is
    present its quantity is stored in the list, and a parse error is wrapped
    with [what] *)
Definition annotated (an : gmap string string) (key resourceName what : string)
    (resourceList : gmap string Quantity) : gmap string Quantity + string :=
  match an !! key with
  | Some quantity =>
      match appendQuantityToResourceList quantity resourceName resourceList with
      | inr err => inr (Wrapf err what)
      | inl list => inl list
      end
  | None => inl resourceList
  end.

(** the result is the pair (requirements, error) of the Go function *)
Definition getResourceRequirements (an : gmap string string)
    (targetContainer keyCPULimit keyMemoryLimit keyCPURequest keyMemoryRequest : string)
    : option ResourceRequirements * option string :=
  let msg what := "error parsing " +:+ targetContainer +:+ what in
  match annotated an keyCPULimit ResourceCPU (msg " cpu limit")
                  (∅ : gmap string Quantity) with
  | inr err => (None, Some err)
  | inl limits =>
  match annotated an keyMemoryLimit ResourceMemory (msg " memory limit") limits with
  | inr err => (None, Some err)
  | inl limits =>
  match annotated an keyCPURequest ResourceCPU (msg " cpu request")
                  (∅ : gmap string Quantity) with
  | inr err => (None, Some err)
  | inl requests =>
  match annotated an keyMemoryRequest ResourceMemory (msg " memory request") requests with
  | inr err => (None, Some err)
  | inl requests =>
      if bool_decide (0 < size limits) || bool_decide (0 < size requests)
      then (Some (mkRequirements limits requests), None)
      else (None, None)
  end end end end.

Definition GetResourceRequirementsFunc
    (targetContainer keyCPULimit keyMemoryLimit keyCPURequest keyMemoryRequest : string)
    : gmap string string → option ResourceRequirements * option string :=
  λ an, getResourceRequirements an targetContainer keyCPULimit keyMemoryLimit
                                keyCPURequest keyMemoryRequest.
(** the quantity an annotation gives, when it is present and parses *)
Definition parsed (an : gmap string string) (key : string) : option Quantity :=
  match an !! key with
  | Some quantity =>
      match ParseQuantity quantity with inl q => Some q | inr _ => None end
  | None => None
  end.

(** the annotation is present and does not parse *)
Definition unparsable (an : gmap string string) (key : string) : Prop :=
  match an !! key with
  | Some quantity =>
      match ParseQuantity quantity with inl _ => False | inr _ => True end
  | None => False
  end.
End Patcher.

(** ** The nine options by kind *)

#[global] Instance kind_eq_dec : EqDecision kind.
Proof. solve_decision. Defined.

Section Options.
Variable component : kind → Type.

(** the option of options.go that adds components of kind [k] *)
Definition With (k : kind) : list (component k) → Option component :=
  match k with
  | KSecretStore => WithSecretStores component
  | KState => WithStates component
  | KConfiguration => WithConfigurations component
  | KLock => WithLocks component
  | KPubSub => WithPubSubs component
  | KNameResolution => WithNameResolutions component
  | KInputBinding => WithInputBindings component
  | KOutputBinding => WithOutputBindings component
  | KHTTPMiddleware => WithHTTPMiddleware component
  end.
End Options.

(** ** Vocabulary of the statements *)


(** The four commands that query the context. *)
Definition is_read (cmd : Command) : bool :=
  match cmd with
  | GetReqBody | GetRespBody | GetReqHeaders | GetRespHeaders => true
  | _ => false
  end.

(** a response header for the examples: it lists the pairs it was given *)
Definition listing_header : ResponseHeader :=
  mkResponseHeader header_table []
    (λ k v t, t ++ [(k, v)])
    (λ ct t, t ++ [("Content-Type", ct)])
    (λ _, [])
    (λ t, t).

(** a request with the given headers and an empty response *)
Definition request_with (t : header_table) : RequestCtx :=
  mkCtx (mkRequest "GET" "/" t [] "/" []) (mkResponse 200 listing_header []).

(** The plugin never closes the stream: its context is never done and Recv
    never reports io.EOF. *)
Definition stream_never_closed (evs : list event) : bool :=
  forallb (λ ev, match ev with
                 | EvStreamDone | EvRecv RecvEOF _ => false
                 | _ => true
                 end) evs.

Definition deadline_elapses (evs : list event) : bool :=
  existsb (λ ev, match ev with EvDeadline => true | _ => false end) evs.

Definition timed_out (name : string) (ctx : RequestCtx) : RequestCtx :=
  ctx_Error (timeout_message name) http_StatusInternalServerError ctx.

(** an event that ends the stream: Recv returns io.EOF or an error *)
Definition ends_stream (ev : event) : bool :=
  match ev with
  | EvRecv RecvEOF _ | EvRecv (RecvErr _) _ => true
  | _ => false
  end.

Definition is_returned (o : outcome) : bool :=
  match o with
  | Returned _ _ => true
  | Blocked _ _ => false
  end.

(** a parser for the examples: only the text "1" is a quantity *)
Definition parse_one (s : string) : nat + string :=
  if decide (s = "1") then inl 1 else inr "quantities must match the regular expression".

(** signals that fire while Recv is pending, in order: [true] is the
    stream's context becoming done, [false] the request's *)
Definition signal_events (bs : list bool) : list event :=
  (λ b : bool, if b then EvStreamDone else EvDeadline) <$> bs.

(** the state of the two contexts after these signals *)
Definition record_signals (bs : list bool) (sg : signals) : signals :=
  foldl (λ sg (b : bool),
           if b then mkSignals true (ctxDone sg) else mkSignals (streamDone sg) true)
        sg bs.


(** * Properties *)

(** ** Header tables *)





(** ** Command dispatch *)





(** C10: the handler returns an error only for the four queries, and then
    the error of [callback]; every other command, a message without a
    command included, returns nil and sends nothing.  A message without a
    command leaves the context alone and the loop goes on to the next
    receive. *)
Theorem C10_dispatch_errors
    (order : range_order) (h : RequestCtx → RequestCtx)
    (callback : CommandResponse → option string)
    (ctx : RequestCtx) (cmd : Command) :
  let d := commandHandler order h callback ctx cmd in
  (if is_read cmd
   then ∃ r, d_sent d = [r] ∧ d_err d = callback r ∧ d_ctx d = ctx
   else d_sent d = [] ∧ d_err d = None) ∧
  commandHandler order h callback ctx NoCommand = mkDispatched ctx [] None ∧
  (∀ name evs sent,
     recv_loop order name h (EvRecv (RecvCmd NoCommand) callback :: evs)
               no_signal ctx sent
     = recv_loop order name h evs no_signal ctx sent).
Proof.
  split; [destruct cmd; simpl; unfold reply; eauto|].
  split; [done|]. intros name evs sent. simpl. unfold select; simpl.
  by rewrite app_nil_r.
Qed.

(** C2: ExecuteNext runs the next handler inside the dispatch; a following
    SetResponseBody{data} leaves a response whose body is [data], whatever
    the next handler did; a session made of these two commands and a clean
    end of stream returns that response. *)
Theorem C2_exec_next_then_set_response_body
    (order : range_order) (name : string) (h : RequestCtx → RequestCtx)
    (send1 send2 send3 : CommandResponse → option string)
    (ctx : RequestCtx) (data : bytes) :
  let d1 := commandHandler order h send1 ctx ExecNext in
  let d2 := commandHandler order h send2 (d_ctx d1) (SetRespBody data) in
  d_ctx d1 = h ctx ∧ d_err d1 = None ∧ d_err d2 = None ∧
  resp_body (ctxResponse (d_ctx d2)) = data ∧
  middleware order name h None no_signal
    [EvRecv (RecvCmd ExecNext) send1;
     EvRecv (RecvCmd (SetRespBody data)) send2;
     EvRecv RecvEOF send3] ctx
  = [Returned (d_ctx d2) []].
Proof. simpl. repeat split. Qed.

(** ** The command loop *)

Local Arguments commandHandler : simpl never.

Section Loop.
Variable order : range_order.
Variable name : string.
Variable h : RequestCtx → RequestCtx.

(** While neither context is done the loop dispatches what it receives, in
    arrival order, and stops at the first dispatch error. *)
Lemma recv_loop_commands (cmds : list received) (rest : list event) ctx sent :
  recv_loop order name h (events_of cmds ++ rest) no_signal ctx sent
  = let d := dispatch_all order h cmds ctx sent in
    match d_err d with
    | Some e => [Returned (error_response e (d_ctx d)) (d_sent d)]
    | None => recv_loop order name h rest no_signal (d_ctx d) (d_sent d)
    end.
Proof.
  revert ctx sent. induction cmds as [|[cmd send] cmds IH]; intros ctx sent; [done|].
  simpl. destruct (commandHandler order h send ctx cmd) as [c s [e|]]; simpl; [done|].
  apply IH.
Qed.

Lemma recv_loop_signals (bs : list bool) (rest : list event) sg ctx sent :
  recv_loop order name h (signal_events bs ++ rest) sg ctx sent
  = recv_loop order name h rest (record_signals bs sg) ctx sent.
Proof.
  revert sg. induction bs as [|[] bs IH]; intros sg; [done|..]; simpl; apply IH.
Qed.

(** C5: in every session, wherever it stands (any commands dispatched
    before, any signals fired while Recv was pending, anything following on
    the stream): an error opening the stream, an error of Recv and an error
    returned by the dispatch each end the session at once with a response
    of status 500 carrying the error text; a clean end of stream (io.EOF
    from Recv, or the stream's context found done by the select) ends it
    with the context exactly as the commands dispatched so far, ExecuteNext
    included, have left it. *)
Theorem C5_errors_and_clean_end
    (cmds : list received) (bs : list bool) (rest : list event)
    (send : CommandResponse → option string) (cmd : Command)
    (ctx : RequestCtx) (e : string) (sg : signals) :
  let d := dispatch_all order h cmds ctx [] in
  let before := events_of cmds ++ signal_events bs in
  let found := record_signals bs no_signal in
  let run evs := middleware order name h None no_signal evs ctx in
  resp_status (ctxResponse (error_response e ctx)) = 500%Z ∧
  resp_body (ctxResponse (error_response e ctx)) = String.list_byte_of_string e ∧
  ctxRequest (error_response e ctx) = ctxRequest ctx ∧
  middleware order name h (Some e) sg rest ctx = [Returned (error_response e ctx) []] ∧
  run (before ++ EvRecv (RecvErr e) send :: rest)
  = [Returned (error_response (default e (d_err d)) (d_ctx d)) (d_sent d)] ∧
  run (before ++ EvRecv RecvEOF send :: rest)
  = match d_err d with
    | Some e' => [Returned (error_response e' (d_ctx d)) (d_sent d)]
    | None => [Returned (d_ctx d) (d_sent d)]
    end ∧
  run (before ++ EvRecv (RecvCmd cmd) send :: rest)
  = match d_err d with
    | Some e' => [Returned (error_response e' (d_ctx d)) (d_sent d)]
    | None =>
        let d' := commandHandler order h send (d_ctx d) cmd in
        let sent := d_sent d ++ d_sent d' in
        match d_err d' with
        | Some e' => [Returned (error_response e' (d_ctx d')) sent]
        | None =>
            match streamDone found, ctxDone found with
            | true, false => [Returned (d_ctx d') sent]
            | true, true =>
                [Returned (d_ctx d') sent; Returned (timed_out name (d_ctx d')) sent]
            | false, true => [Returned (timed_out name (d_ctx d')) sent]
            | false, false => recv_loop order name h rest found (d_ctx d') sent
            end
        end
    end ∧
  middleware order name h None (mkSignals true false) rest ctx = [Returned ctx []] ∧
  dispatch_all order h [(ExecNext, send)] ctx [] = mkDispatched (h ctx) [] None.
Proof.
  intros d before found run. subst run before. unfold middleware, select; simpl.
  split; [done|]. split; [done|]. split; [done|]. split; [done|].
  rewrite <- !app_assoc, !recv_loop_commands. cbv zeta.
  rewrite !recv_loop_signals. fold d. fold found. clearbody d found.
  destruct d as [c s [e'|]]; simpl; [done|].
  split; [done|]. split; [done|]. split; [|done].
  by destruct (commandHandler order h send c cmd) as [? ? [?|]].
Qed.
End Loop.

(** ** The deadline *)

(** C1: the code does not do what the claim says.  The select has a
    default branch: it polls the two contexts and, when neither is done,
    calls the blocking Recv.  A deadline that the select finds gives the
    response of status 500 whose body is
    "timed out waiting for middleware '<name>'".  A deadline that fires while
    Recv is pending is not raced against it: the handler goes on only when
    the transport fails the Recv, and the response is then a 500 that carries
    the transport's error text and not the name of the plugin. *)
Theorem C1_deadline_during_recv
    (order : range_order) (name : string) (h : RequestCtx → RequestCtx)
    (evs : list event) (ctx : RequestCtx) (e : string)
    (send : CommandResponse → option string) :
  let pending := [EvDeadline; EvRecv (RecvErr e) send] in
  timeout_message name = "timed out waiting for middleware '" +:+ name +:+ "'" ∧
  resp_status (ctxResponse (timed_out name ctx)) = 500%Z ∧
  resp_body (ctxResponse (timed_out name ctx))
  = String.list_byte_of_string (timeout_message name) ∧
  middleware order name h None (mkSignals false true) evs ctx
  = [Returned (timed_out name ctx) []] ∧
  stream_never_closed pending = true ∧
  deadline_elapses pending = true ∧
  middleware order name h None no_signal pending ctx
  = [Returned (error_response e ctx) []] ∧
  resp_status (ctxResponse (error_response e ctx)) = 500%Z ∧
  resp_body (ctxResponse (error_response e ctx)) = String.list_byte_of_string e ∧
  error_response "context canceled" ctx ≠ timed_out name ctx.
Proof.
  repeat (split; [reflexivity|]).
  intros Heq. apply (f_equal (λ c, resp_body (ctxResponse c))) in Heq.
  vm_compute in Heq. discriminate Heq.
Qed.

(** ** The connector *)

Lemma append_nil (b : string) : "" +:+ b = b.
Proof. reflexivity. Qed.

Lemma append_cons (c : Ascii.ascii) (a b : string) :
  String c a +:+ b = String c (a +:+ b).
Proof. reflexivity. Qed.

Lemma append_length (a b : string) :
  String.length (a +:+ b) = String.length a + String.length b.
Proof.
  induction a as [|c a IH]; [done|].
  rewrite append_cons. simpl. by rewrite IH.
Qed.

Lemma append_assoc (a b c : string) : (a +:+ b) +:+ c = a +:+ b +:+ c.
Proof.
  induction a as [|x a IH]; [done|].
  rewrite !append_cons. by rewrite IH.
Qed.

Lemma append_inj_r (s a b : string) : a +:+ s = b +:+ s → a = b.
Proof.
  revert b. induction a as [|c a IH]; intros [|c' b];
    rewrite ?append_nil, ?append_cons; [done|..].
  - intros Heq. apply (f_equal String.length) in Heq.
    simpl in Heq. rewrite append_length in Heq. lia.
  - intros Heq. apply (f_equal String.length) in Heq.
    simpl in Heq. rewrite append_length in Heq. lia.
  - intros [= -> Heq]. f_equal. by apply IH.
Qed.

(** C6: the socket path is a function of the socket root, the descriptor
    and the instance name only: it does not depend on the rest of the
    connector, and it is the text
    [{root}/dapr-{type}.{name}-{version}-{instance}.sock] with the root read
    from the environment or defaulting to /var/run.  Two descriptors that
    differ only in their name get different paths. *)
Theorem C6_socket_path
    (env : gmap string string) (type name1 name2 version instance : string)
    (conn1 conn2 : option string) (client1 client2 : bool) :
  let pc := mkPluggable type name1 version in
  let pc' := mkPluggable type name2 version in
  socketPathFor env (mkConnector pc conn1 client1) instance
  = socketPathFor env (mkConnector pc conn2 client2) instance ∧
  socketPathFor env (NewGRPCConnector pc) instance
  = socketsFolder env +:+ "/dapr-" +:+ type +:+ "." +:+ name1 +:+ "-" +:+ version
      +:+ "-" +:+ instance +:+ ".sock" ∧
  socketsFolder env
  = default "/var/run" (env !! "DAPR_PLUGGABLE_COMPONENTS_SOCKETS_FOLDER") ∧
  (socketPathFor env (NewGRPCConnector pc) instance
   = socketPathFor env (NewGRPCConnector pc') instance ↔ name1 = name2).
Proof.
  simpl. split; [done|]. split; [done|]. split; [done|].
  unfold socketPathFor; simpl. split; [|by intros ->].
  intros Heq.
  do 4 apply (inj (String.app _)) in Heq.
  by apply append_inj_r in Heq.
Qed.

(** C7: Dial opens the channel at "unix://" followed by the socket path,
    with the insecure transport credentials added to the caller's options.
    If that fails, no ping is made and the error returned wraps the cause in a
    message that quotes the address.  Otherwise Dial makes one Ping with
    WaitForReady(true) and returns its error.  So Dial returns nil exactly
    when both the open and the ping succeed. *)
Theorem C7_dial
    (env : gmap string string)
    (grpc_Dial : string → list DialOption → option string)
    (client_Ping : list CallOption → option string)
    (g : GRPCConnector) (instance : string) (additionalOpts : list DialOption) :
  let target := "unix://" +:+ socketPathFor env g instance in
  let opts := additionalOpts ++ [WithTransportCredentials_insecure] in
  let result := Dial env grpc_Dial client_Ping g instance additionalOpts in
  match grpc_Dial target opts with
  | Some e =>
      result.1.2 = [CallDial target opts] ∧
      result.1.1 = g ∧
      result.2 = Some ("unable to open GRPC connection using socket '"
                       +:+ target +:+ "': " +:+ e)
  | None =>
      result.1.2 = [CallDial target opts; CallPing [WaitForReady true]] ∧
      conn result.1.1 = Some target ∧
      result.2 = client_Ping [WaitForReady true]
  end ∧
  (result.2 = None ↔
   grpc_Dial target opts = None ∧ client_Ping [WaitForReady true] = None).
Proof.
  intros target opts result. subst result. unfold Dial. fold target. fold opts.
  destruct (grpc_Dial target opts) as [e|]; simpl.
  - split; [|by split; [|intros []]].
    repeat split. unfold Wrapf. by rewrite !append_assoc.
  - split; [done|]. by split; [|intros []].
Qed.

(** ** The registry *)

(** C9: resolving a descriptor whose type has no entry in the registry
    returns 0, runs none of the registered constructors and leaves the host
    as it was except for one more logged warning. *)
Theorem C9_register_unknown_type
    (registries : registries_t) (pc : Pluggable) (hst : host) :
  registries !! Type_ pc = None →
  ∃ warning,
    Register registries pc hst
    = (0, mkHost (warnings hst ++ [warning]) (registered hst) (built hst)).
Proof. intros Hnone. unfold Register. rewrite Hnone. eauto. Qed.

Lemma C9_witness :
  ∃ warning,
    Register (AddRegistryFor "state" count_register count_map ∅)
             (mkPluggable "" "" "") (mkHost [] [] [])
    = (0, mkHost ([] ++ [warning]) [] []).
Proof. apply (C9_register_unknown_type _ (mkPluggable "" "" "")). reflexivity. Defined.

(** The second case of TestRegisterFunc: with a constructor registered for
    the type, Register runs it once and returns 1; nothing is logged and the
    factory is not run. *)
Example Register_known_type :
  Register (AddRegistryFor "state" count_register count_map ∅)
           (mkPluggable "state" "store" "v1") (mkHost [] [] [])
  = (1, mkHost [] ["store"] []).
Proof. reflexivity. Qed.

(** ** The loader *)

Section LoaderProps.
Variable component : kind → Type.
Variable MustLoad : ∀ k : kind, Pluggable → component k.
Variables components_State components_PubSub components_InputBinding
          components_OutputBinding components_HTTPMiddleware
          components_Configuration components_Secret components_Lock
          components_NameResolution : string.

Abbreviation known :=
  (known_types components_State components_PubSub components_InputBinding
     components_OutputBinding components_HTTPMiddleware components_Configuration
     components_Secret components_Lock components_NameResolution).
Abbreviation loaders :=
  (pluggableOptions component MustLoad
     components_State components_PubSub components_InputBinding
     components_OutputBinding components_HTTPMiddleware components_Configuration
     components_Secret components_Lock components_NameResolution).
Abbreviation load_all :=
  (WithPluggables component MustLoad
     components_State components_PubSub components_InputBinding
     components_OutputBinding components_HTTPMiddleware components_Configuration
     components_Secret components_Lock components_NameResolution).
Abbreviation load_one :=
  (load_one component MustLoad
     components_State components_PubSub components_InputBinding
     components_OutputBinding components_HTTPMiddleware components_Configuration
     components_Secret components_Lock components_NameResolution).
Abbreviation table :=
  (loader_table components_State components_PubSub components_InputBinding
     components_OutputBinding components_HTTPMiddleware components_Configuration
     components_Secret components_Lock components_NameResolution).

Lemma withOpts_snoc (opts : list (Option component)) opt o :
  withOpts component (opts ++ [opt]) o = opt (withOpts component opts o).
Proof. unfold withOpts. by rewrite foldl_app. Qed.

Lemma WithPluggables_fold (pcs : list Pluggable) (o : runtimeOpts component) :
  load_all pcs o = foldl load_one o pcs.
Proof.
  unfold WithPluggables.
  induction pcs as [|pc pcs IH] using rev_ind; [done|].
  rewrite !foldl_app; simpl. unfold load_one at 1.
  destruct (loaders !! Type_ pc) as [load|]; [|done].
  by rewrite withOpts_snoc, IH.
Qed.

Lemma loaders_unknown (t : string) : t ∉ known → loaders !! t = None.
Proof.
  intros Hnin. unfold pluggableOptions, useOption.
  repeat (rewrite lookup_insert_ne; [|intros <-; apply Hnin; set_solver]).
  apply lookup_empty.
Qed.

Hypothesis distinct_types : NoDup known.

Lemma loaders_State :
  loaders !! components_State
  = Some (λ pc, WithStates component [MustLoad KState pc]).
Proof.
  unfold pluggableOptions, useOption.
  unfold known_types in distinct_types.
  apply NoDup_cons in distinct_types as [Hnin _].
  repeat (rewrite lookup_insert_ne; [|intros ->; apply Hnin; set_solver]).
  by rewrite lookup_insert_eq.
Qed.

Lemma load_one_components (tag : string) (k : kind)
    (o : runtimeOpts component) (pc : Pluggable) :
  (tag, k) ∈ table →
  components_of component k (load_one o pc)
  = components_of component k o
    ++ (if decide (Type_ pc = tag) then [MustLoad k pc] else []).
Proof.
  intros Hin. pose proof distinct_types as Hd. unfold known_types in Hd.
  rewrite !NoDup_cons, !not_elem_of_cons in Hd. destruct_and!.
  unfold loader_table in Hin.
  repeat (apply elem_of_cons in Hin as [[= -> ->]|Hin];
          [unfold load_one, pluggableOptions, useOption;
           repeat (rewrite lookup_insert; case_decide;
                   [simpl; case_decide; try congruence; by rewrite ?app_nil_r|]);
           rewrite lookup_empty; simpl; case_decide; try congruence;
           by rewrite ?app_nil_r|]).
  by apply elem_of_nil in Hin.
Qed.

Lemma load_all_components (tag : string) (k : kind)
    (pcs : list Pluggable) (o : runtimeOpts component) :
  (tag, k) ∈ table →
  components_of component k (load_all pcs o)
  = components_of component k o
    ++ (MustLoad k <$> filter (λ pc, Type_ pc = tag) pcs).
Proof.
  intros Hin. rewrite WithPluggables_fold. revert o.
  induction pcs as [|pc pcs IH]; intros o; simpl; [by rewrite app_nil_r|].
  rewrite IH, (load_one_components tag k) by done. rewrite filter_cons.
  case_decide; simpl; [|by rewrite app_nil_r].
  by rewrite <- app_assoc.
Qed.

Variable unknownType : string.
Hypothesis unknown_type : unknownType ∉ known.

(** C8: WithPluggables handles the descriptors one by one, in order.  A
    descriptor whose type has no loader changes nothing; a descriptor of a
    type with a loader is loaded and appended to the list of its kind: for
    each of the nine kinds the list of the result is the list already
    present followed by one component per descriptor of that type, in the
    order of the descriptors.  For the three descriptors state "a",
    unknownType "b", state "c" the result holds the two state stores "a" and
    "c" and nothing else. *)
Theorem C8_with_pluggables (pcs : list Pluggable) (pc : Pluggable)
    (o : runtimeOpts component) :
  load_all (pcs ++ [pc]) o
  = match loaders !! Type_ pc with
    | Some load => load pc (load_all pcs o)
    | None => load_all pcs o
    end ∧
  (if decide (Type_ pc ∈ known) then is_Some (loaders !! Type_ pc)
   else load_all (pcs ++ [pc]) o = load_all pcs o) ∧
  loaders !! components_State
  = Some (λ pc, WithStates component [MustLoad KState pc]) ∧
  (∀ tag k, (tag, k) ∈ table →
     components_of component k (load_all pcs o)
     = components_of component k o
       ++ (MustLoad k <$> filter (λ pc, Type_ pc = tag) pcs)) ∧
  states component (load_all pcs o)
  = states component o
    ++ (MustLoad KState <$> filter (λ pc, Type_ pc = components_State) pcs) ∧
  load_all [mkPluggable components_State "a" "v1";
            mkPluggable unknownType "b" "v1";
            mkPluggable components_State "c" "v1"] (empty_opts component)
  = mkOpts component []
      [MustLoad KState (mkPluggable components_State "a" "v1");
       MustLoad KState (mkPluggable components_State "c" "v1")]
      [] [] [] [] [] [] [].
Proof.
  assert (Hsnoc : load_all (pcs ++ [pc]) o
                  = match loaders !! Type_ pc with
                    | Some load => load pc (load_all pcs o)
                    | None => load_all pcs o
                    end).
  { rewrite !WithPluggables_fold, foldl_app. done. }
  split; [exact Hsnoc|]. split.
  { case_decide as Hk.
    - unfold pluggableOptions, useOption. unfold known_types in Hk.
      repeat (rewrite lookup_insert; case_decide; [by eauto|]).
      repeat (apply elem_of_cons in Hk as [Heq|Hk]; [congruence|]).
      by apply elem_of_nil in Hk.
    - rewrite Hsnoc. by rewrite loaders_unknown. }
  split; [apply loaders_State|].
  split; [intros tag k Hin; by apply load_all_components|].
  split; [apply (load_all_components components_State KState); left|].
  rewrite WithPluggables_fold. cbn [foldl]. unfold load_one. cbn [Type_].
  pose proof loaders_State as Hs.
  pose proof (loaders_unknown unknownType unknown_type) as Hu.
  unfold Option in *. by rewrite Hs, Hu.
Qed.
End LoaderProps.

Lemma C8_witness :
  let known := known_types "state" "pubsub" "inputbinding" "outputbinding"
                 "middleware.http" "configuration" "secretstores" "lock"
                 "nameresolution" in
  NoDup known ∧ ("unknownType" ∉ known) ∧
  WithPluggables (λ _, Pluggable) (λ _ pc, pc)
    "state" "pubsub" "inputbinding" "outputbinding" "middleware.http"
    "configuration" "secretstores" "lock" "nameresolution"
    [mkPluggable "state" "a" "v1"; mkPluggable "unknownType" "b" "v1";
     mkPluggable "state" "c" "v1"] (empty_opts (λ _, Pluggable))
  = mkOpts (λ _, Pluggable) []
      [mkPluggable "state" "a" "v1"; mkPluggable "state" "c" "v1"]
      [] [] [] [] [] [] [].
Proof.
  intros known.
  assert (Hnd : NoDup known) by (apply (bool_decide_unpack _); by vm_compute).
  assert (Hnin : "unknownType" ∉ known) by (apply (bool_decide_unpack _); by vm_compute).
  split; [exact Hnd|]. split; [exact Hnin|].
  exact (proj2 (proj2 (proj2 (proj2 (proj2
    (C8_with_pluggables (λ _, Pluggable) (λ _ pc, pc)
       "state" "pubsub" "inputbinding" "outputbinding" "middleware.http"
       "configuration" "secretstores" "lock" "nameresolution"
       Hnd "unknownType" Hnin [] (mkPluggable "" "" "")
       (empty_opts (λ _, Pluggable)))))))).
Defined.

(** * Further properties *)

(** ** Sessions *)

Lemma iter_shift {A : Type} (f : A → A) (n : nat) (x : A) :
  Nat.iter n f (f x) = f (Nat.iter n f x).
Proof. induction n as [|n IH]; simpl; [done|]. by rewrite IH. Qed.

Lemma dispatch_all_ExecNext (order : range_order) (h : RequestCtx → RequestCtx)
    (send : CommandResponse → option string) (n : nat) ctx sent :
  dispatch_all order h (replicate n (ExecNext, send)) ctx sent
  = mkDispatched (Nat.iter n h ctx) sent None.
Proof.
  revert ctx. induction n as [|n IH]; intros ctx; simpl; [done|].
  unfold commandHandler; simpl. by rewrite app_nil_r, IH, iter_shift.
Qed.

(** X3: ExecuteNext is not guarded: a session that receives it [n] times
    and then a clean end of stream has run the next handler [n] times on the
    context, in sequence, and has sent nothing. *)
Theorem X3_exec_next_repeats
    (order : range_order) (name : string) (h : RequestCtx → RequestCtx)
    (send : CommandResponse → option string) (n : nat) (ctx : RequestCtx) :
  middleware order name h None no_signal
    (replicate n (EvRecv (RecvCmd ExecNext) send) ++ [EvRecv RecvEOF send]) ctx
  = [Returned (Nat.iter n h ctx) []].
Proof.
  unfold middleware, select; simpl.
  replace (replicate n (EvRecv (RecvCmd ExecNext) send))
    with (events_of (replicate n (ExecNext, send)))
    by (unfold events_of; by rewrite fmap_replicate).
  by rewrite recv_loop_commands, dispatch_all_ExecNext.
Qed.

(** X4: when no Send fails, dispatching a sequence of commands returns no
    error and hands the stream exactly one response per query (GetRequestBody,
    GetResponseBody, GetRequestHeaders, GetResponseHeaders) and none for any
    other command; a session made of these commands and a clean end of
    stream returns with those responses sent. *)
Theorem X4_one_response_per_query
    (order : range_order) (name : string) (h : RequestCtx → RequestCtx)
    (cmds : list received) (send : CommandResponse → option string)
    (ctx : RequestCtx) :
  Forall (λ c : received, ∀ r, c.2 r = None) cmds →
  let d := dispatch_all order h cmds ctx [] in
  d_err d = None ∧
  length (d_sent d) = length (filter (λ c : received, is_read c.1) cmds) ∧
  middleware order name h None no_signal
    (events_of cmds ++ [EvRecv RecvEOF send]) ctx
  = [Returned (d_ctx d) (d_sent d)].
Proof.
  intros Hall d.
  assert (Hgen : ∀ cmds ctx sent,
            Forall (λ c : received, ∀ r, c.2 r = None) cmds →
            d_err (dispatch_all order h cmds ctx sent) = None ∧
            length (d_sent (dispatch_all order h cmds ctx sent))
            = length sent + length (filter (λ c : received, is_read c.1) cmds)).
  { clear. intros cmds. induction cmds as [|[cmd snd] cmds IH]; intros ctx sent Hall.
    - simpl. split; [done|]. by rewrite Nat.add_0_r.
    - apply Forall_cons in Hall as [Hsnd Hall]. simpl in Hsnd.
      rewrite filter_cons. simpl.
      assert (Hc : d_err (commandHandler order h snd ctx cmd) = None
                   ∧ length (d_sent (commandHandler order h snd ctx cmd))
                     = if is_read cmd then 1 else 0).
      { unfold commandHandler, reply. destruct cmd; simpl; by rewrite ?Hsnd. }
      destruct Hc as [Herr Hlen]. rewrite Herr.
      destruct (IH (d_ctx (commandHandler order h snd ctx cmd))
                   (sent ++ d_sent (commandHandler order h snd ctx cmd)) Hall)
        as [Herr' Hlen'].
      split; [exact Herr'|]. rewrite Hlen', length_app, Hlen.
      destruct (is_read cmd); simpl; lia. }
  destruct (Hgen cmds ctx [] Hall) as [Herr Hlen].
  split; [exact Herr|]. split; [exact Hlen|].
  unfold middleware, select; simpl. rewrite recv_loop_commands.
  cbv zeta. by rewrite Herr.
Qed.

Lemma X4_witness :
  let cmds : list received :=
    [(GetReqBody, λ _, None); (SetRespStatus 204, λ _, None);
     (GetRespHeaders, λ _, None)] in
  let d := dispatch_all listed_range id cmds (request_with []) [] in
  d_err d = None ∧ length (d_sent d) = 2.
Proof.
  intros cmds d.
  destruct (X4_one_response_per_query listed_range "mw" id cmds (λ _, None)
              (request_with [])) as (Herr & Hlen & _).
  - repeat constructor.
  - split; [exact Herr| exact Hlen].
Defined.

Lemma select_returned (name : string) sg ctx sent k :
  forallb is_returned k = true →
  forallb is_returned (select name sg ctx sent k) = true.
Proof. intros Hk. unfold select. by destruct (streamDone sg), (ctxDone sg). Qed.

Lemma recv_loop_terminates (order : range_order) (name : string)
    (h : RequestCtx → RequestCtx) evs sg ctx sent :
  existsb ends_stream evs = true →
  forallb is_returned (recv_loop order name h evs sg ctx sent) = true.
Proof.
  revert sg ctx sent.
  induction evs as [|ev evs IH]; intros sg ctx sent Hex; [done|].
  destruct ev as [| |[cmd| |e] send]; simpl in *; try done; try by apply IH.
  destruct (d_err _); [done|]. apply select_returned. by apply IH.
Qed.

(** X5: a stream that at some point makes Recv return io.EOF or an error
    ends the handler: whatever else happens before, and however the select
    chooses, the handler returns and is not left waiting in Recv. *)
Theorem X5_stream_end_terminates
    (order : range_order) (name : string) (h : RequestCtx → RequestCtx)
    (handle_err : option string) (sg : signals) (evs : list event)
    (ctx : RequestCtx) :
  existsb ends_stream evs = true →
  forallb is_returned (middleware order name h handle_err sg evs ctx) = true.
Proof.
  intros Hex. unfold middleware. destruct handle_err; [done|].
  apply select_returned. by apply recv_loop_terminates.
Qed.

Lemma X5_witness :
  forallb is_returned
    (middleware listed_range "mw" id None no_signal
       [EvDeadline; EvRecv (RecvCmd GetReqBody) (λ _, None);
        EvRecv (RecvErr "closed") (λ _, None)] (request_with []))
  = true.
Proof. apply X5_stream_end_terminates. reflexivity. Defined.

(** X6: if one of the two contexts is already done when the loop is entered,
    nothing is received or dispatched: whatever the stream holds, the handler
    returns the untouched context (stream done), the timeout response
    (request done), or either of the two (both done). *)
Theorem X6_done_at_entry
    (order : range_order) (name : string) (h : RequestCtx → RequestCtx)
    (sg : signals) (evs : list event) (ctx : RequestCtx) :
  streamDone sg || ctxDone sg = true →
  middleware order name h None sg evs ctx
  = (if streamDone sg then [Returned ctx []] else [])
    ++ (if ctxDone sg then [Returned (timed_out name ctx) []] else []).
Proof.
  unfold middleware, select. by destruct (streamDone sg), (ctxDone sg).
Qed.

Lemma X6_witness :
  middleware listed_range "mw" id None (mkSignals true true)
    [EvRecv (RecvCmd ExecNext) (λ _, None)] (request_with [])
  = [Returned (request_with []) []; Returned (timed_out "mw" (request_with [])) []].
Proof. apply (X6_done_at_entry listed_range "mw" id (mkSignals true true)). reflexivity. Defined.

(** ** The factory and the socket path *)

(** X7: the middleware factory dials the component under the metadata name
    with no extra dial option, sends Init with the metadata properties only
    after Dial returned nil, and returns a handler exactly when opening the
    channel, the ping and Init all succeed; the error it returns is that of
    the first step that failed, and the handler it returns carries the
    metadata name. *)
Theorem X7_factory_steps
    (order : range_order) (env : gmap string string)
    (grpc_Dial : string → list DialOption → option string)
    (client_Ping : list CallOption → option string)
    (client_Init : gmap string string → option string)
    (pc : Pluggable) (name : string) (props : gmap string string) :
  let target := "unix://" +:+ socketPathFor env (NewGRPCConnector pc) name in
  let opened := grpc_Dial target [WithTransportCredentials_insecure] in
  let pinged := client_Ping [WaitForReady true] in
  let r := newGRPCMiddleware order env grpc_Dial client_Ping client_Init pc name props in
  (f_err r = None ↔ opened = None ∧ pinged = None ∧ client_Init props = None) ∧
  f_init r = (if decide (opened = None ∧ pinged = None) then Some props else None) ∧
  f_handler r = (if decide (f_err r = None) then Some (middleware order name) else None) ∧
  f_err r = match opened with
            | Some e =>
                Some ("unable to open GRPC connection using socket '"
                      +:+ target +:+ "': " +:+ e)
            | None => match pinged with
                      | Some e => Some e
                      | None => client_Init props
                      end
            end.
Proof.
  intros target opened pinged r. subst r.
  unfold newGRPCMiddleware, Dial, Ping; simpl. fold target. fold opened. fold pinged.
  assert (Hw : ∀ e, Wrapf e ("unable to open GRPC connection using socket '"
                              +:+ target +:+ "'")
                   = "unable to open GRPC connection using socket '"
                     +:+ target +:+ "': " +:+ e).
  { intros e. unfold Wrapf. by rewrite !append_assoc. }
  destruct opened as [e|]; [|destruct pinged as [e|];
                              [|destruct (client_Init props) as [e|]]];
    simpl; rewrite ?Hw;
    (split; [intuition congruence|]);
    (split; [try case_decide; intuition congruence|]);
    (split; [try case_decide; intuition congruence|]); done.
Qed.

(** X8: with everything else equal, two socket paths are equal only if the
    types are equal, only if the versions are equal, and only if the instance
    names are equal: changing one of these alone changes the path. *)
Theorem X8_socket_path_one_field
    (env : gmap string string) (type type' name version version'
     instance instance' : string) :
  let path t v i := socketPathFor env (NewGRPCConnector (mkPluggable t name v)) i in
  (path type version instance = path type' version instance ↔ type = type') ∧
  (path type version instance = path type version' instance ↔ version = version') ∧
  (path type version instance = path type version instance' ↔ instance = instance').
Proof.
  intros path. subst path. unfold socketPathFor; simpl.
  split; [|split]; (split; [|by intros ->]); intros Heq.
  - do 2 apply (inj (String.app _)) in Heq. by apply append_inj_r in Heq.
  - do 6 apply (inj (String.app _)) in Heq. by apply append_inj_r in Heq.
  - do 8 apply (inj (String.app _)) in Heq. by apply append_inj_r in Heq.
Qed.

(** X9: the socket path does not tell where the name ends and the version
    begins, nor where the version ends and the instance name begins: moving
    a dash-separated part from one field to the next gives a different
    descriptor (or instance name) with the same path. *)
Theorem X9_socket_path_collisions
    (env : gmap string string) (type a b c instance : string) :
  let path pc i := socketPathFor env (NewGRPCConnector pc) i in
  mkPluggable type (a +:+ "-" +:+ b) c ≠ mkPluggable type a (b +:+ "-" +:+ c) ∧
  path (mkPluggable type (a +:+ "-" +:+ b) c) instance
  = path (mkPluggable type a (b +:+ "-" +:+ c)) instance ∧
  path (mkPluggable type a (b +:+ "-" +:+ c)) instance
  = path (mkPluggable type a b) (c +:+ "-" +:+ instance).
Proof.
  intros path. subst path. unfold socketPathFor; simpl. split; [|split].
  - intros [= Hn _]. apply (f_equal String.length) in Hn.
    rewrite !append_length in Hn. simpl in Hn. lia.
  - by rewrite !append_assoc.
  - by rewrite !append_assoc.
Qed.

(** ** Options *)

(** X10: each of the nine With... options appends its arguments to the list
    of its own kind and leaves the eight other lists alone; applying the
    same option twice is applying it once to the two argument lists joined
    in order; two options of different kinds can be applied in either
    order. *)
Theorem X10_options_by_kind
    (component : kind → Type) (k k' : kind)
    (xs xs' : list (component k)) (ys : list (component k'))
    (o : runtimeOpts component) :
  components_of component k (With component k xs o)
  = components_of component k o ++ xs ∧
  With component k xs (With component k xs' o) = With component k (xs' ++ xs) o ∧
  (if decide (k = k') then True
   else components_of component k' (With component k xs o)
        = components_of component k' o
        ∧ With component k xs (With component k' ys o)
          = With component k' ys (With component k xs o)).
Proof.
  split; [by destruct k|]. split.
  - destruct k; destruct o; simpl;
      unfold WithSecretStores, WithStates, WithConfigurations, WithLocks,
        WithPubSubs, WithNameResolutions, WithInputBindings, WithOutputBindings,
        WithHTTPMiddleware; simpl; by rewrite app_assoc.
  - case_decide as Hk; [done|]. by destruct k, k'.
Qed.

Section LoaderMore.
Variable component : kind → Type.
Variable MustLoad : ∀ k : kind, Pluggable → component k.
Variables components_State components_PubSub components_InputBinding
          components_OutputBinding components_HTTPMiddleware
          components_Configuration components_Secret components_Lock
          components_NameResolution : string.

Abbreviation known' :=
  (known_types components_State components_PubSub components_InputBinding
     components_OutputBinding components_HTTPMiddleware components_Configuration
     components_Secret components_Lock components_NameResolution).
Abbreviation load_all' :=
  (WithPluggables component MustLoad
     components_State components_PubSub components_InputBinding
     components_OutputBinding components_HTTPMiddleware components_Configuration
     components_Secret components_Lock components_NameResolution).
Abbreviation load_one' :=
  (load_one component MustLoad
     components_State components_PubSub components_InputBinding
     components_OutputBinding components_HTTPMiddleware components_Configuration
     components_Secret components_Lock components_NameResolution).
Abbreviation table' :=
  (loader_table components_State components_PubSub components_InputBinding
     components_OutputBinding components_HTTPMiddleware components_Configuration
     components_Secret components_Lock components_NameResolution).

(** X11: loading a list of descriptors in two batches is loading it at once:
    the option built from [pcs1 ++ pcs2] is the option of [pcs1] followed by
    the option of [pcs2]; the option built from no descriptor changes
    nothing. *)
Theorem X11_with_pluggables_batches
    (pcs1 pcs2 : list Pluggable) (o : runtimeOpts component) :
  WithPluggables component MustLoad
    components_State components_PubSub components_InputBinding
    components_OutputBinding components_HTTPMiddleware components_Configuration
    components_Secret components_Lock components_NameResolution (pcs1 ++ pcs2) o
  = load_all' pcs2 (load_all' pcs1 o) ∧
  load_all' [] o = o.
Proof.
  split; [|done]. by rewrite !WithPluggables_fold, foldl_app.
Qed.

(** X12: descriptors whose types all lack a loader change nothing, however
    many there are. *)
Theorem X12_unknown_types_only
    (pcs : list Pluggable) (o : runtimeOpts component) :
  Forall (λ pc, Type_ pc ∉ known') pcs →
  WithPluggables component MustLoad
    components_State components_PubSub components_InputBinding
    components_OutputBinding components_HTTPMiddleware components_Configuration
    components_Secret components_Lock components_NameResolution pcs o = o.
Proof.
  intros Hall. rewrite WithPluggables_fold.
  induction Hall as [|pc pcs Hpc _ IH]; [done|].
  simpl. unfold load_one at 2.
  pose proof (loaders_unknown component MustLoad _ _ _ _ _ _ _ _ _ _ Hpc) as Hu.
  unfold Option in *. by rewrite Hu.
Qed.

Hypothesis distinct_types : NoDup known'.

Lemma every_kind_has_a_tag (k : kind) : ∃ tag, (tag, k) ∈ table'.
Proof.
  unfold loader_table.
  destruct k; eexists; apply list_elem_of_In; simpl; eauto 10.
Qed.

(** X13: when the nine type tags are distinct, the order of the descriptors
    matters only for the order inside each list: two permutations of the
    same descriptors give, for every kind, lists that are permutations of
    each other. *)
Theorem X13_descriptor_order
    (pcs pcs' : list Pluggable) (o : runtimeOpts component) (k : kind) :
  pcs ≡ₚ pcs' →
  components_of component k
    (WithPluggables component MustLoad
       components_State components_PubSub components_InputBinding
       components_OutputBinding components_HTTPMiddleware components_Configuration
       components_Secret components_Lock components_NameResolution pcs o)
  ≡ₚ components_of component k (load_all' pcs' o).
Proof.
  intros Hperm. destruct (every_kind_has_a_tag k) as [tag Hin].
  rewrite !(load_all_components component MustLoad _ _ _ _ _ _ _ _ _
              distinct_types tag k) by done.
  by rewrite Hperm.
Qed.
End LoaderMore.

Lemma X12_witness :
  WithPluggables (λ _, Pluggable) (λ _ pc, pc)
    "state" "pubsub" "inputbinding" "outputbinding" "middleware.http"
    "configuration" "secretstores" "lock" "nameresolution"
    [mkPluggable "workflow" "a" "v1"; mkPluggable "crypto" "b" "v1"]
    (empty_opts (λ _, Pluggable))
  = empty_opts (λ _, Pluggable).
Proof.
  apply X12_unknown_types_only.
  repeat constructor; apply (bool_decide_unpack _); by vm_compute.
Defined.

Lemma X13_witness :
  components_of (λ _, Pluggable) KState
    (WithPluggables (λ _, Pluggable) (λ _ pc, pc)
       "state" "pubsub" "inputbinding" "outputbinding" "middleware.http"
       "configuration" "secretstores" "lock" "nameresolution"
       [mkPluggable "state" "a" "v1"; mkPluggable "state" "c" "v1"]
       (empty_opts (λ _, Pluggable)))
  ≡ₚ components_of (λ _, Pluggable) KState
    (WithPluggables (λ _, Pluggable) (λ _ pc, pc)
       "state" "pubsub" "inputbinding" "outputbinding" "middleware.http"
       "configuration" "secretstores" "lock" "nameresolution"
       [mkPluggable "state" "c" "v1"; mkPluggable "state" "a" "v1"]
       (empty_opts (λ _, Pluggable))).
Proof.
  apply (X13_descriptor_order (λ _, Pluggable) (λ _ pc, pc)
           "state" "pubsub" "inputbinding" "outputbinding" "middleware.http"
           "configuration" "secretstores" "lock" "nameresolution").
  - apply (bool_decide_unpack _); by vm_compute.
  - apply Permutation_swap.
Defined.

(** ** Injector patches *)

Lemma foldl_filter_map {A B : Type} (P : A → Prop) `{!∀ x, Decision (P x)}
    (c : A → bool) (f : A → B) (l : list A) (acc : list B) :
  (∀ x, c x = true ↔ ¬ P x) →
  foldl (λ ops x, if c x then ops else ops ++ [f x]) acc l
  = acc ++ (f <$> filter P l).
Proof.
  intros Hc. revert acc. induction l as [|x l IH]; intros acc; simpl.
  - by rewrite app_nil_r.
  - rewrite IH, filter_cons. destruct (c x) eqn:Hx.
    + apply Hc in Hx. by rewrite decide_False.
    + assert (P x) as HP.
      { destruct (decide (P x)) as [|Hn]; [done|]. apply Hc in Hn. congruence. }
      rewrite decide_True by done. simpl. by rewrite <- app_assoc.
Qed.

Lemma filter_none {A : Type} (P : A → Prop) `{!∀ x, Decision (P x)} (l : list A) :
  (∀ x, x ∈ l → ¬ P x) → filter P l = [].
Proof.
  intros Hl. apply elem_of_nil_inv. intros x [HP Hin]%list_elem_of_filter.
  by apply (Hl x).
Qed.

Section PatcherProps.
Variable EnvVar : Type.
Variable EnvVar_Name : EnvVar → string.
Variable VolumeMount : Type.
Variable VolumeMount_Name : VolumeMount → string.
Variable VolumeMount_MountPath : VolumeMount → string.
Variable PatchPathContainers : string.
Variable Sprintf_d : Z → string.

Abbreviation env_ops :=
  (GetEnvPatchOperations EnvVar EnvVar_Name VolumeMount PatchPathContainers Sprintf_d).
Abbreviation mount_ops :=
  (GetVolumeMountPatchOperations EnvVar VolumeMount VolumeMount_Name
     VolumeMount_MountPath PatchPathContainers Sprintf_d).
Abbreviation patch := (mkPatch EnvVar VolumeMount).
Abbreviation free_env := (env_free EnvVar EnvVar_Name).
Abbreviation free_mount :=
  (mount_free VolumeMount VolumeMount_Name VolumeMount_MountPath).

Lemma env_isConflict_spec env envs :
  env_isConflict EnvVar EnvVar_Name env envs = true ↔ ¬ free_env envs env.
Proof.
  unfold env_free. induction envs as [|actual envs IH]; simpl.
  - split; [done|]. intros H. exfalso. apply H. apply not_elem_of_nil.
  - rewrite not_elem_of_cons. case_decide as Hn.
    + split; [|done]. intros _ [Hne _]. congruence.
    + rewrite IH. split.
      * intros H [_ Hf]. by apply H.
      * intros H Hf. apply H. split; [congruence|done].
Qed.

Lemma mount_isConflict_spec m volumeMounts :
  mount_isConflict VolumeMount VolumeMount_Name VolumeMount_MountPath m volumeMounts
  = true ↔ ¬ free_mount volumeMounts m.
Proof.
  unfold mount_free. induction volumeMounts as [|mount ms IH]; simpl.
  - split; [done|]. intros H. exfalso. apply H. split; apply not_elem_of_nil.
  - rewrite !not_elem_of_cons. case_decide as Hn.
    + split; [|done]. intros _ [[Hne _] [Hne' _]]. by destruct Hn.
    + rewrite IH. split.
      * intros H [[_ Hf] [_ Hf']]. by apply H.
      * intros H Hf. apply H. destruct Hf as [Hf Hf']. repeat split; try done.
        -- intros Heq. apply Hn. by left.
        -- intros Heq. apply Hn. by right.
Qed.

Lemma env_ops_cons (e : EnvVar) (envs addEnv : list EnvVar) (containerIdx : Z) :
  env_ops (e :: envs) addEnv containerIdx
  = (λ env, patch "add"
              (PatchPathContainers +:+ "/" +:+ Sprintf_d containerIdx +:+ "/env" +:+ "/-")
              (OneEnvVar EnvVar VolumeMount env))
      <$> filter (free_env (e :: envs)) addEnv.
Proof.
  unfold GetEnvPatchOperations. rewrite decide_False by done. cbv zeta.
  rewrite (foldl_filter_map (free_env (e :: envs))).
  - by rewrite !append_assoc.
  - intros env. apply env_isConflict_spec.
Qed.

Lemma mount_ops_cons (m : VolumeMount) (ms addMounts : list VolumeMount)
    (containerIdx : Z) :
  mount_ops (m :: ms) addMounts containerIdx
  = (λ a, patch "add"
            (PatchPathContainers +:+ "/" +:+ Sprintf_d containerIdx
               +:+ "/volumeMounts" +:+ "/-")
            (OneVolumeMount EnvVar VolumeMount a))
      <$> filter (free_mount (m :: ms)) addMounts.
Proof.
  unfold GetVolumeMountPatchOperations. rewrite decide_False by done. cbv zeta.
  rewrite (foldl_filter_map (free_mount (m :: ms))).
  - by rewrite !append_assoc.
  - intros a. apply mount_isConflict_spec.
Qed.

(** X14: for a container that has environment variables,
    GetEnvPatchOperations returns one "add" operation on [.../env/-] for each
    variable of [addEnv] whose name no existing variable has, in the order
    of [addEnv]; variables whose name is taken are left out, and two added
    variables of the same free name are both kept.  For a container without
    variables it returns a single "add" on [.../env] that carries [addEnv]
    whole. *)
Theorem X14_env_patch_operations
    (envs addEnv : list EnvVar) (containerIdx : Z) :
  let path := PatchPathContainers +:+ "/" +:+ Sprintf_d containerIdx +:+ "/env" in
  GetEnvPatchOperations EnvVar EnvVar_Name VolumeMount PatchPathContainers Sprintf_d
    envs addEnv containerIdx
  = match envs with
    | [] => [patch "add" path (EnvVars EnvVar VolumeMount addEnv)]
    | _ :: _ =>
        (λ env, patch "add" (path +:+ "/-") (OneEnvVar EnvVar VolumeMount env))
          <$> filter (env_free EnvVar EnvVar_Name envs) addEnv
    end.
Proof.
  destruct envs as [|e envs]; [done|]. rewrite env_ops_cons.
  cbv zeta. by rewrite !append_assoc.
Qed.

(** X15: once the variables added by GetEnvPatchOperations are part of the
    container, calling it again with the same [addEnv] returns no operation
    at all. *)
Theorem X15_env_patch_settles
    (envs addEnv : list EnvVar) (containerIdx : Z) :
  envs ≠ [] →
  GetEnvPatchOperations EnvVar EnvVar_Name VolumeMount PatchPathContainers Sprintf_d
    (envs ++ filter (env_free EnvVar EnvVar_Name envs) addEnv) addEnv containerIdx
  = [].
Proof.
  intros Hne. destruct envs as [|e envs]; [done|]. simpl app.
  rewrite env_ops_cons. rewrite filter_none; [done|].
  intros x Hx Hfree. unfold env_free in Hfree.
  rewrite fmap_cons, fmap_app, not_elem_of_cons, not_elem_of_app in Hfree.
  destruct Hfree as (Hf0 & Hf1 & Hf2). apply Hf2.
  apply list_elem_of_fmap. exists x. split; [done|].
  apply list_elem_of_filter. split; [|done].
  unfold env_free. rewrite fmap_cons, not_elem_of_cons. by split.
Qed.

(** X16: for a container that has volume mounts,
    GetVolumeMountPatchOperations returns one "add" operation on
    [.../volumeMounts/-] for each mount of [addMounts] that shares neither its
    name nor its mount path with an existing mount, in the order of
    [addMounts]; for a container without mounts it returns a single "add" on
    [.../volumeMounts] that carries [addMounts] whole. *)
Theorem X16_volume_mount_patch_operations
    (volumeMounts addMounts : list VolumeMount) (containerIdx : Z) :
  let path :=
    PatchPathContainers +:+ "/" +:+ Sprintf_d containerIdx +:+ "/volumeMounts" in
  GetVolumeMountPatchOperations EnvVar VolumeMount VolumeMount_Name
    VolumeMount_MountPath PatchPathContainers Sprintf_d
    volumeMounts addMounts containerIdx
  = match volumeMounts with
    | [] => [patch "add" path (VolumeMounts EnvVar VolumeMount addMounts)]
    | _ :: _ =>
        (λ m, patch "add" (path +:+ "/-") (OneVolumeMount EnvVar VolumeMount m))
          <$> filter (mount_free VolumeMount VolumeMount_Name VolumeMount_MountPath
                      volumeMounts) addMounts
    end.
Proof.
  destruct volumeMounts as [|m ms]; [done|]. rewrite mount_ops_cons.
  cbv zeta. by rewrite !append_assoc.
Qed.

End PatcherProps.

Lemma X15_witness :
  GetEnvPatchOperations (string * string) fst unit "/spec/containers" (λ _, "0")
    ([("A", "1")] ++ filter (env_free (string * string) fst [("A", "1")])
                            [("A", "2"); ("B", "3")])
    [("A", "2"); ("B", "3")] 0
  = [].
Proof. apply X15_env_patch_settles. done. Defined.

(** ** Resource requirements *)

Section ResourceProps.
Variable Quantity : Type.
Variable ParseQuantity : string → Quantity + string.

Abbreviation requirements := (getResourceRequirements Quantity ParseQuantity).
Abbreviation parsed' := (parsed Quantity ParseQuantity).
Abbreviation unparsable' := (unparsable Quantity ParseQuantity).

Lemma annotated_cases (an : gmap string string) (key resourceName what : string)
    (l : gmap string Quantity) :
  annotated Quantity ParseQuantity an key resourceName what l
  = match an !! key with
    | None => inl l
    | Some q =>
        match ParseQuantity q with
        | inl v => inl (<[resourceName := v]> l)
        | inr e => inr (Wrapf e what)
        end
    end.
Proof.
  unfold annotated, appendQuantityToResourceList.
  destruct (an !! key) as [q|]; [|done]. by destruct (ParseQuantity q).
Qed.

Lemma insert_has_entries (k : string) (v : Quantity) (m : gmap string Quantity) :
  bool_decide (0 < size (<[k := v]> m)) = true.
Proof.
  apply bool_decide_eq_true.
  assert (size (<[k := v]> m) ≠ 0); [|lia].
  apply map_size_non_empty_iff, insert_non_empty.
Qed.

Ltac annotation_cases an k q v e :=
  rewrite ?annotated_cases;
  destruct (an !! k) as [q|]; [destruct (ParseQuantity q) as [v|e]|]; simpl.

Ltac requirements_cases an k1 k2 k3 k4 :=
  unfold getResourceRequirements, parsed, unparsable;
  let q := fresh "q" in let v := fresh "v" in let e := fresh "e" in
  annotation_cases an k1 q v e;
  (let q := fresh "q" in let v := fresh "v" in let e := fresh "e" in
   annotation_cases an k2 q v e);
  (let q := fresh "q" in let v := fresh "v" in let e := fresh "e" in
   annotation_cases an k3 q v e);
  (let q := fresh "q" in let v := fresh "v" in let e := fresh "e" in
   annotation_cases an k4 q v e);
  rewrite ?insert_has_entries, ?orb_true_r; simpl.

(** X17: getResourceRequirements returns neither requirements nor an error
    exactly when none of the four annotations is present. *)
Theorem X17_no_annotation_no_requirements
    (an : gmap string string)
    (targetContainer keyCPULimit keyMemoryLimit keyCPURequest keyMemoryRequest : string) :
  getResourceRequirements Quantity ParseQuantity an targetContainer keyCPULimit keyMemoryLimit keyCPURequest keyMemoryRequest
  = (None, None)
  ↔ an !! keyCPULimit = None ∧ an !! keyMemoryLimit = None ∧
    an !! keyCPURequest = None ∧ an !! keyMemoryRequest = None.
Proof.
  requirements_cases an keyCPULimit keyMemoryLimit keyCPURequest keyMemoryRequest;
    (split; [by intros ? | by intros (? & ? & ? & ?)]).
Qed.

(** X18: getResourceRequirements returns an error exactly when one of the
    four annotations is present and does not parse; with an error it returns
    no requirements; and an unparsable cpu limit is reported first, as
    "error parsing <container> cpu limit: <cause>", whatever the other
    annotations hold. *)
Theorem X18_requirements_errors
    (an : gmap string string)
    (targetContainer keyCPULimit keyMemoryLimit keyCPURequest keyMemoryRequest : string) :
  let r := getResourceRequirements Quantity ParseQuantity an targetContainer keyCPULimit keyMemoryLimit
                        keyCPURequest keyMemoryRequest in
  (r.2 = None ↔ ¬ unparsable Quantity ParseQuantity an keyCPULimit ∧ ¬ unparsable' an keyMemoryLimit ∧
                ¬ unparsable' an keyCPURequest ∧ ¬ unparsable' an keyMemoryRequest) ∧
  (r.2 = None ∨ r.1 = None) ∧
  (∀ q e, an !! keyCPULimit = Some q → ParseQuantity q = inr e →
          r = (None, Some ("error parsing " +:+ targetContainer
                           +:+ " cpu limit: " +:+ e))).
Proof.
  intros r. subst r. split; [|split].
  - requirements_cases an keyCPULimit keyMemoryLimit keyCPURequest keyMemoryRequest;
      intuition congruence.
  - requirements_cases an keyCPULimit keyMemoryLimit keyCPURequest keyMemoryRequest;
      first [by left | by right].
  - intros q e Hq He. unfold getResourceRequirements.
    rewrite annotated_cases, Hq, He. unfold Wrapf. by rewrite !append_assoc.
Qed.

(** X19: when getResourceRequirements returns requirements, the limits hold
    under "cpu" the parsed cpu-limit annotation and under "memory" the parsed
    memory-limit annotation, the requests likewise for the two request
    annotations, an absent annotation leaves its entry absent, and neither
    list holds any other resource. *)
Theorem X19_requirements_contents
    (an : gmap string string)
    (targetContainer keyCPULimit keyMemoryLimit keyCPURequest keyMemoryRequest : string)
    (r : ResourceRequirements Quantity) :
  getResourceRequirements Quantity ParseQuantity an targetContainer keyCPULimit keyMemoryLimit keyCPURequest keyMemoryRequest
  = (Some r, None) →
  Limits Quantity r !! "cpu" = parsed' an keyCPULimit ∧
  Limits Quantity r !! "memory" = parsed' an keyMemoryLimit ∧
  Requests Quantity r !! "cpu" = parsed' an keyCPURequest ∧
  Requests Quantity r !! "memory" = parsed' an keyMemoryRequest ∧
  (∀ name, name ≠ "cpu" → name ≠ "memory" →
           Limits Quantity r !! name = None ∧ Requests Quantity r !! name = None).
Proof.
  requirements_cases an keyCPULimit keyMemoryLimit keyCPURequest keyMemoryRequest;
    intros [= <-] || done; simpl; unfold ResourceCPU, ResourceMemory;
    repeat split; try (intros nm Hc Hm; split); by simplify_map_eq.
Qed.
End ResourceProps.

Lemma X19_witness :
  let r := mkRequirements nat {["cpu" := 1]} ∅ in
  Limits nat r !! "cpu" = parsed nat parse_one {["cpu-limit" := "1"]} "cpu-limit" ∧
  Limits nat r !! "memory" = parsed nat parse_one {["cpu-limit" := "1"]} "memory-limit".
Proof.
  intros r.
  destruct (X19_requirements_contents nat parse_one {["cpu-limit" := "1"]}
              "sidecar" "cpu-limit" "memory-limit" "cpu-request" "memory-request" r)
    as (H1 & H2 & _); [reflexivity|].
  split; [exact H1|exact H2].
Defined.

(** ** Sessions the plugin never closes *)



